(** * rlite-rs: the reply decoder and the connection of [src/src/lib.rs]

    A shallow embedding of the Rust binding to hirlite.  The foreign
    [RliteReply] record is modelled as the tree of records reachable from
    a reply pointer (the view [Reply::new] reads through its raw
    pointers); the foreign functions of the [extern] block form a type
    class over an abstract engine state, and the connection's methods run
    in a small state monad that logs every foreign call. *)

From Stdlib Require Import Bool ZArith List Lia.
From Stdlib Require Import Strings.String Strings.Ascii Strings.Byte DecimalString DecimalZ.
Import ListNotations.
Open Scope Z_scope.

#[local] Set Warnings "-register-all".

(** ** Outcomes of Rust code: normal return, panic, undefined behaviour *)

Inductive outcome (A : Type) : Type :=
| Done (a : A)
| Panic
| Undef.
Arguments Done {A} a.
Arguments Panic {A}.
Arguments Undef {A}.

Definition obind {A B} (m : outcome A) (k : A -> outcome B) : outcome B :=
  match m with
  | Done a => k a
  | Panic => Panic
  | Undef => Undef
  end.

Notation "'let!' x := m 'in' k" := (obind m (fun x => k))
  (at level 200, x name, m at level 100, right associativity).

(** Rust's [Result]. *)
Inductive result (T E : Type) : Type :=
| Ok (t : T)
| Err (e : E).
Arguments Ok {T E} t.
Arguments Err {T E} e.

(** ** Integer types and casts *)

(** [c_int] (32 bits, signed), [c_ulonglong] and [size_t] (64 bits,
    unsigned) are kept as [Z]. *)
Definition c_int_of_usize (n : nat) : Z :=
  let m := Z.of_nat n mod 2 ^ 32 in
  if m >=? 2 ^ 31 then m - 2 ^ 32 else m.

(** [x as i64] for an unsigned 64-bit [x]. *)
Definition u64_as_i64 (x : Z) : Z :=
  let m := x mod 2 ^ 64 in
  if m >=? 2 ^ 63 then m - 2 ^ 64 else m.

(** ** UTF-8 validation ([String::from_utf8]) *)

Definition in_range (lo hi : nat) (b : byte) : bool :=
  (lo <=? Byte.to_nat b)%nat && (Byte.to_nat b <=? hi)%nat.

Definition cont (b : byte) : bool := in_range 128 191 b.

(** Well-formed UTF-8 byte sequences (Unicode, Table 3-7): the sequences
    [core::str::from_utf8] accepts. *)
Fixpoint utf8_valid (l : list byte) : bool :=
  match l with
  | [] => true
  | b1 :: t1 =>
    if in_range 0 127 b1 then utf8_valid t1
    else match t1 with
    | [] => false
    | b2 :: t2 =>
      if in_range 194 223 b1 then cont b2 && utf8_valid t2
      else match t2 with
      | [] => false
      | b3 :: t3 =>
        if in_range 224 224 b1 then in_range 160 191 b2 && cont b3 && utf8_valid t3
        else if in_range 225 236 b1 then cont b2 && cont b3 && utf8_valid t3
        else if in_range 237 237 b1 then in_range 128 159 b2 && cont b3 && utf8_valid t3
        else if in_range 238 239 b1 then cont b2 && cont b3 && utf8_valid t3
        else match t3 with
        | [] => false
        | b4 :: t4 =>
          if in_range 240 240 b1 then
            in_range 144 191 b2 && cont b3 && cont b4 && utf8_valid t4
          else if in_range 241 243 b1 then
            cont b2 && cont b3 && cont b4 && utf8_valid t4
          else if in_range 244 244 b1 then
            in_range 128 143 b2 && cont b3 && cont b4 && utf8_valid t4
          else false
        end
      end
    end
  end.

(** A Rust [String] is its UTF-8 bytes; a Rocq [string] holds one byte
    per [ascii] character. *)
Fixpoint string_of_bytes (l : list byte) : string :=
  match l with
  | [] => EmptyString
  | b :: t => String (ascii_of_byte b) (string_of_bytes t)
  end.

(** [String::from_utf8(v)]: [None] stands for [Err(FromUtf8Error)]. *)
Definition String_from_utf8 (v : list byte) : option string :=
  if utf8_valid v then Some (string_of_bytes v) else None.

(** [String::from_utf8(v).unwrap()] *)
Definition from_utf8_unwrap (v : list byte) : outcome string :=
  match String_from_utf8 v with
  | Some s => Done s
  | None => Panic
  end.

(** [format!("{}", n)] for an integer. *)
Definition fmt_int (n : Z) : string := NilZero.string_of_int (Z.to_int n).

(** Reading a decimal integer back (to show what [fmt_int] names). *)
Definition parse_int (s : string) : option Z :=
  option_map Z.of_int (NilZero.int_of_string s).

(** ** The foreign reply record and the decoded reply *)

Definition RLITE_REPLY_STRING : Z := 1.
Definition RLITE_REPLY_ARRAY : Z := 2.
Definition RLITE_REPLY_INTEGER : Z := 3.
Definition RLITE_REPLY_NIL : Z := 4.
Definition RLITE_REPLY_STATUS : Z := 5.
Definition RLITE_REPLY_ERROR : Z := 6.

(** [#[repr(C)] struct RliteReply].  [st] is the memory readable at the
    byte pointer [st] (it may extend past [len]); [element] is the pointer
    array: [None] for a null pointer, [Some cs] when the records [cs] are
    readable through it (it may hold more than [elements] entries). *)
Inductive RliteReply : Type := mkRliteReply {
  rtype : Z;            (* c_int *)
  integer : Z;          (* c_ulonglong *)
  len : Z;              (* c_int *)
  st : list byte;       (* *const c_uchar *)
  elements : Z;         (* size_t *)
  element : option (list RliteReply) (* *const *const RliteReply *)
}.

(** [pub enum Reply] *)
Inductive Reply : Type :=
| Nil
| Integer (n : Z)
| Data (v : list byte)
| Status (s : string)
| Array (vs : list Reply).

(** [str_to_vec!]: [Vec::with_capacity(len as usize)] panics with
    "capacity overflow" for a negative [len] (sign-extended, it exceeds
    [isize::MAX]); [copy] past the readable bytes is undefined. *)
Definition str_to_vec (len : Z) (st : list byte) : outcome (list byte) :=
  if len <? 0 then Panic
  else if Z.of_nat (List.length st) <? len then Undef
  else Done (firstn (Z.to_nat len) st).

(** The loop of the array arm of [Reply::new]:
    [for i in 0..elements { v.push(try!(Reply::new(slice[i]))); }].
    [dec] is [Reply::new]; [cs] the records of the pointer array, [k] the
    number of iterations left. *)
Fixpoint decode_children (dec : RliteReply -> outcome (result Reply string))
    (cs : list RliteReply) (k : nat) : outcome (result (list Reply) string) :=
  match k, cs with
  | O, _ => Done (Ok [])
  | S k', c :: cs' =>
    let! rc := dec c in
    match rc with
    | Err e => Done (Err e)
    | Ok v =>
      let! rest := decode_children dec cs' k' in
      match rest with
      | Err e => Done (Err e)
      | Ok vs => Done (Ok (v :: vs))
      end
    end
  | S _, [] => Undef
  end.

(** [Vec::<Reply>::with_capacity(n)] panics with "capacity overflow" when
    [n * size_of::<Reply>()] exceeds [isize::MAX - (align_of::<Reply>() - 1)].
    On a 64-bit target [Reply] takes 32 bytes (a tag and the 24 bytes of a
    [Vec]) with alignment 8, so the bound is [n < 2^58].  As for
    [str_to_vec!], the global allocator is taken to grant every request
    that passes this check. *)
Definition REPLY_CAPACITY_LIMIT : Z := 2 ^ 58.

(** [Reply::new].  The array arm: [Vec::with_capacity(elements)] first,
    which panics past [REPLY_CAPACITY_LIMIT]; then
    [slice::from_raw_parts(element, elements)], undefined for a null
    pointer (whatever the count) and over a pointer array holding fewer
    than [elements] records; then the loop decodes [slice[0..elements]] in
    order, and [try!] returns the first [Err]. *)
Fixpoint reply_new (r : RliteReply) : outcome (result Reply string) :=
  let '(mkRliteReply rt n l s es el) := r in
  if rt =? RLITE_REPLY_STRING then
    let! v := str_to_vec l s in Done (Ok (Data v))
  else if rt =? RLITE_REPLY_STATUS then
    let! v := str_to_vec l s in
    let! t := from_utf8_unwrap v in Done (Ok (Status t))
  else if rt =? RLITE_REPLY_ERROR then
    let! v := str_to_vec l s in
    let! t := from_utf8_unwrap v in Done (Err t)
  else if rt =? RLITE_REPLY_NIL then Done (Ok Nil)
  else if rt =? RLITE_REPLY_INTEGER then Done (Ok (Integer (u64_as_i64 n)))
  else if rt =? RLITE_REPLY_ARRAY then
    if REPLY_CAPACITY_LIMIT <=? es then Panic
    else
      match el with
      | None => Undef
      | Some cs =>
        if Z.of_nat (List.length cs) <? es then Undef
        else
          let! rv := decode_children reply_new cs (Z.to_nat es) in
          match rv with
          | Err e => Done (Err e)
          | Ok vs => Done (Ok (Array vs))
          end
      end
  else Done (Err ("Unknown reply type " ++ fmt_int rt)%string).

(** The bytes a string-like record carries: [len] bytes at [st]. *)
Definition reply_bytes (r : RliteReply) : list byte :=
  firstn (Z.to_nat (len r)) (st r).

(** [len] is non-negative and that many bytes are readable at [st]. *)
Definition wf_bytes (r : RliteReply) : Prop :=
  0 <= len r <= Z.of_nat (List.length (st r)).

(** Induction on reply records, with a hypothesis for every record of
    the pointer array. *)
Definition oForall {A} (P : A -> Prop) (o : option (list A)) : Prop :=
  match o with
  | None => True
  | Some cs => Forall P cs
  end.

Definition RliteReply_ind' (P : RliteReply -> Prop)
  (f : forall rt n l s es el, oForall P el -> P (mkRliteReply rt n l s es el)) :
  forall r, P r :=
  fix go r :=
    match r with
    | mkRliteReply rt n l s es el =>
      f rt n l s es el
        (match el as o return oForall P o with
         | None => I
         | Some cs =>
           (fix go_list (cs : list RliteReply) : Forall P cs :=
              match cs with
              | [] => Forall_nil P
              | c :: cs' => Forall_cons c (go c) (go_list cs')
              end) cs
         end)
    end.

(** The part of a record [Reply::new] may reach: [len] bytes at [st] and
    the first [elements] records of a non-null pointer array, recursively. *)
Fixpoint trim (r : RliteReply) : RliteReply :=
  let '(mkRliteReply rt n l s es el) := r in
  mkRliteReply rt n l (firstn (Z.to_nat l) s) es
    (option_map (fun cs => firstn (Z.to_nat es) (map trim cs)) el).

(** [f] holds of the first [k] records of [cs], and there are [k]. *)
Fixpoint children_ok (f : RliteReply -> bool) (cs : list RliteReply) (k : nat) : bool :=
  match k, cs with
  | O, _ => true
  | S k', c :: cs' => f c && children_ok f cs' k'
  | S _, [] => false
  end.

Definition string_like (rt : Z) : bool :=
  (rt =? RLITE_REPLY_STRING) || (rt =? RLITE_REPLY_STATUS) || (rt =? RLITE_REPLY_ERROR).

Definition text_tag (rt : Z) : bool :=
  (rt =? RLITE_REPLY_STATUS) || (rt =? RLITE_REPLY_ERROR).

(** A well-formed record, as the engine is meant to produce it: for the
    string-like tags [len] is non-negative with [len] bytes readable, and
    status and error text is valid UTF-8; for the array tag [elements] is
    below [REPLY_CAPACITY_LIMIT] and the pointer array is non-null and
    holds [elements] records, themselves well-formed. *)
Fixpoint wf_record (r : RliteReply) : bool :=
  let '(mkRliteReply rt n l s es el) := r in
  (if string_like rt then
     (0 <=? l) && (l <=? Z.of_nat (List.length s)) &&
     (if text_tag rt then utf8_valid (firstn (Z.to_nat l) s) else true)
   else true) &&
  (if rt =? RLITE_REPLY_ARRAY then
     (0 <=? es) && (es <? REPLY_CAPACITY_LIMIT) &&
     match el with
     | None => false
     | Some cs => children_ok wf_record cs (Z.to_nat es)
     end
   else true).

(** The tag of the record a decoded value comes from. *)
Definition reply_tag (v : Reply) : Z :=
  match v with
  | Nil => RLITE_REPLY_NIL
  | Integer _ => RLITE_REPLY_INTEGER
  | Data _ => RLITE_REPLY_STRING
  | Status _ => RLITE_REPLY_STATUS
  | Array _ => RLITE_REPLY_ARRAY
  end.

(** A C string at a pointer: the bytes up to the first NUL of the
    readable memory [mem]; reading on without finding one is undefined. *)
Fixpoint c_string_at (mem : list byte) : outcome (list byte) :=
  match mem with
  | [] => Undef
  | b :: mem' =>
    if Byte.eqb b x00 then Done []
    else let! t := c_string_at mem' in Done (b :: t)
  end.

(** The bytes of the Rust literal [":memory:"] (no terminating NUL). *)
Definition memory_literal : list byte := [x3a; x6d; x65; x6d; x6f; x72; x79; x3a].

Example fmt_int_neg : fmt_int (-7) = "-7"%string.
Proof. reflexivity. Qed.

Example reply_new_array_ex :
  reply_new (mkRliteReply 2 0 0 [] 2
    (Some [mkRliteReply 1 0 1 [x31] 0 None; mkRliteReply 3 (2 ^ 64 - 1) 0 [] 0 None;
           mkRliteReply 6 0 0 [] 0 None]))
  = Done (Ok (Array [Data [x31]; Integer (-1)])).
Proof. reflexivity. Qed.

(** ** The foreign interface ([extern] block of hirlite)

    Pointers and handles are addresses ([N], [0] being null).  The
    engine's state [E] is abstract: every theorem below holds for any
    engine.  [reply_at e p] is the record tree readable from a reply
    pointer [p] (the memory [Reply::new] dereferences), [None] when [p]
    points to no live record. *)
Class Hirlite (E : Type) := {
  rliteConnect : E -> list byte -> Z -> N * E;
  rliteAppendCommandArgv : E -> N -> Z -> list N -> list Z -> Z * E;
  rliteGetReply : E -> N -> Z * N * E;
  reply_at : E -> N -> option RliteReply;
  rliteFreeReplyObject : E -> N -> E;
  rliteFree : E -> N -> E
}.

(** Interactions with the foreign side, in the order they happen. *)
Inductive FCall : Type :=
| CConnect (path : list byte) (port : Z)
| CAppendCommandArgv (handle : N) (argc : Z) (argv : list N) (argvlen : list Z)
| CGetReply (handle : N)
| CReadReply (reply : N)   (* [Reply::new] dereferences the record *)
| CFreeReplyObject (reply : N)
| CFree (handle : N).

Record World (E : Type) : Type := mkWorld {
  engine : E;
  calls : list FCall
}.
Arguments mkWorld {E} engine calls.
Arguments engine {E} w.
Arguments calls {E} w.

(** The state-and-outcome monad the connection's methods run in. *)
Definition M (E A : Type) : Type := World E -> outcome (A * World E).

Definition ret {E A} (a : A) : M E A := fun w => Done (a, w).

Definition bind {E A B} (m : M E A) (k : A -> M E B) : M E B :=
  fun w => obind (m w) (fun '(a, w') => k a w').

Notation "x <-- m ;; k" := (bind m (fun x => k))
  (at level 61, m at next level, right associativity).

Definition panic {E A} : M E A := fun _ => Panic.

(** Running a foreign call: update the engine and log the call. *)
Definition ffi {E A} (c : FCall) (f : E -> A * E) : M E A :=
  fun w => let '(a, e') := f (engine w) in Done (a, mkWorld e' (calls w ++ [c])).

Section Connection.
Context {E : Type} `{Hirlite E}.

(** [pub struct Rlite { rlite: *mut c_void }] *)
Record Rlite : Type := mkRlite { rlite : N }.

(** [Reply::new(reply)] on a reply pointer. *)
Definition Reply_new (reply : N) : M E (result Reply string) :=
  fun w =>
    match reply_at (engine w) reply with
    | None => Undef
    | Some r =>
      let! res := reply_new r in
      Done (res, mkWorld (engine w) (calls w ++ [CReadReply reply]))
    end.

(** [Rlite::read_reply] *)
Definition read_reply (self : Rlite) : M E (result Reply string) :=
  got <-- ffi (CGetReply (rlite self)) (fun e => let '(rc, p, e') := rliteGetReply e (rlite self) in ((rc, p), e'));;
  let '(rc, reply) := got in
  if rc =? 0 then
    if (reply =? 0)%N then ret (Ok Nil)
    else
      r <-- Reply_new reply;;
      _ <-- ffi (CFreeReplyObject reply) (fun e => (tt, rliteFreeReplyObject e reply));;
      ret r
  else ret (Err "Failed"%string).

(** A Rust slice [&[u8]]: its address and its bytes. *)
Record Slice : Type := mkSlice { as_ptr : N; bytes : list byte }.

(** [Rlite::write_command] *)
Definition write_command (self : Rlite) (command : list Slice) : M E (result unit unit) :=
  let argv := map as_ptr command in
  let argvlen := map (fun c => Z.of_nat (List.length (bytes c))) command in
  let argc := c_int_of_usize (List.length command) in
  rc <-- ffi (CAppendCommandArgv (rlite self) argc argv argvlen)
             (fun e => rliteAppendCommandArgv e (rlite self) argc argv argvlen);;
  if rc =? 0 then ret (Ok tt) else ret (Err tt).

(** [Path::to_str] on a Unix path (its [OsStr] bytes). *)
Definition Path_to_str (path : list byte) : option (list byte) :=
  if utf8_valid path then Some path else None.

(** [CString::new(f)]: [None] stands for [Err(NulError)]. *)
Definition CString_new (f : list byte) : option (list byte) :=
  if existsb (fun b => Byte.eqb b x00) f then None else Some f.

(** [Rlite::file] *)
Definition file (path : list byte) : M E (result Rlite unit) :=
  match Path_to_str path with
  | None => ret (Err tt)
  | Some f =>
    match CString_new f with
    | None => panic
    | Some c =>
      rl <-- ffi (CConnect c 0) (fun e => rliteConnect e c 0);;
      if (rl =? 0)%N then ret (Err tt) else ret (Ok (mkRlite rl))
    end
  end.

(** [Rlite::memory].  [":memory:".as_ptr()] points to the literal's 8
    bytes, with no NUL after them: [rliteConnect] reads the C string
    that starts there, running into [after], the memory that follows the
    literal.  The handle is not checked. *)
Definition memory (after : list byte) : M E Rlite :=
  fun w =>
    match c_string_at (memory_literal ++ after) with
    | Undef => Undef
    | Panic => Panic
    | Done c =>
      (rl <-- ffi (CConnect c 0) (fun e => rliteConnect e c 0);;
       ret (mkRlite rl)) w
    end.

(** [impl Drop for Rlite] *)
Definition drop (self : Rlite) : M E unit :=
  ffi (CFree (rlite self)) (fun e => (tt, rliteFree e (rlite self))).

End Connection.

(** ** A scripted engine

    A concrete engine whose answers are fixed in advance, used to run the
    binding on concrete inputs. *)
Module Scripted.

Record State : Type := mkState {
  next_handle : N;                 (* what [rliteConnect] returns *)
  accept : Z;                      (* what [rliteAppendCommandArgv] returns *)
  pending : list (Z * N);          (* answers of [rliteGetReply], in order *)
  heap : list (N * RliteReply);    (* live reply records *)
  freed : list N                   (* records released, latest first *)
}.

Fixpoint lookup (p : N) (h : list (N * RliteReply)) : option RliteReply :=
  match h with
  | [] => None
  | (q, r) :: h' => if (p =? q)%N then Some r else lookup p h'
  end.

Definition get_reply (e : State) : Z * N * State :=
  match pending e with
  | [] => (0, 0%N, e)
  | (rc, p) :: q => (rc, p, mkState (next_handle e) (accept e) q (heap e) (freed e))
  end.

Definition free_reply (e : State) (p : N) : State :=
  mkState (next_handle e) (accept e) (pending e)
    (filter (fun '(q, _) => negb (p =? q)%N) (heap e)) (p :: freed e).

#[global] Instance hirlite : Hirlite State := {
  rliteConnect e _ _ := (next_handle e, e);
  rliteAppendCommandArgv e _ _ _ _ := (accept e, e);
  rliteGetReply e _ := get_reply e;
  reply_at e p := lookup p (heap e);
  rliteFreeReplyObject := free_reply;
  rliteFree e _ := e
}.

End Scripted.

Example read_reply_scripted :
  read_reply (E := Scripted.State) (mkRlite 1)
    (mkWorld (Scripted.mkState 1 0 [(0, 8%N)]
       [(8%N, mkRliteReply 5 0 2 [x4f; x4b] 0 None)] []) [])
  = Done (Ok (Status "OK"), mkWorld (Scripted.mkState 1 0 [] [] [8%N])
            [CGetReply 1; CReadReply 8; CFreeReplyObject 8]).
Proof. reflexivity. Qed.

(** ** The decoder *)

Lemma str_to_vec_wf r :
  wf_bytes r -> str_to_vec (len r) (st r) = Done (reply_bytes r).
Proof.
  unfold wf_bytes, str_to_vec, reply_bytes; intros [H0 H1].
  destruct (len r <? 0) eqn:E1; [apply Z.ltb_lt in E1; lia|].
  destruct (Z.of_nat (List.length (st r)) <? len r) eqn:E2;
    [apply Z.ltb_lt in E2; lia|reflexivity].
Qed.

Lemma decode_children_ok (dec : RliteReply -> outcome (result Reply string)) :
  forall cs k vs,
  (k <= List.length cs)%nat ->
  Forall2 (fun c v => dec c = Done (Ok v)) (firstn k cs) vs ->
  decode_children dec cs k = Done (Ok vs).
Proof.
  induction cs as [|c cs IH]; intros [|k] vs Hk Hf; simpl in *.
  - inversion Hf; reflexivity.
  - lia.
  - inversion Hf; reflexivity.
  - inversion Hf as [|? v ? vs' Hc Hrest]; subst.
    rewrite Hc; simpl. rewrite (IH k vs') by (lia || assumption). reflexivity.
Qed.

Lemma decode_children_err (dec : RliteReply -> outcome (result Reply string)) :
  forall pre c post k m,
  (List.length pre < k)%nat ->
  Forall (fun c' => exists v, dec c' = Done (Ok v)) pre ->
  dec c = Done (Err m) ->
  decode_children dec (pre ++ c :: post) k = Done (Err m).
Proof.
  induction pre as [|c' pre IH]; intros c post [|k] m Hk Hpre Hc; simpl in *;
    try lia.
  - rewrite Hc; reflexivity.
  - inversion Hpre as [|? ? [v Hv] Hpre']; subst.
    rewrite Hv; simpl. rewrite (IH c post k m) by (lia || assumption).
    reflexivity.
Qed.

Lemma decode_children_panic (dec : RliteReply -> outcome (result Reply string)) :
  forall pre c post k,
  (List.length pre < k)%nat ->
  Forall (fun c' => exists v, dec c' = Done (Ok v)) pre ->
  dec c = Panic ->
  decode_children dec (pre ++ c :: post) k = Panic.
Proof.
  induction pre as [|c' pre IH]; intros c post [|k] Hk Hpre Hc; simpl in *;
    try lia.
  - rewrite Hc; reflexivity.
  - inversion Hpre as [|? ? [v Hv] Hpre']; subst.
    rewrite Hv; simpl. rewrite (IH c post k) by (lia || assumption).
    reflexivity.
Qed.

Lemma reply_new_array n l s es el :
  reply_new (mkRliteReply RLITE_REPLY_ARRAY n l s es el) =
  if REPLY_CAPACITY_LIMIT <=? es then Panic
  else
    match el with
    | None => Undef
    | Some cs =>
      if Z.of_nat (List.length cs) <? es then Undef
      else
        let! rv := decode_children reply_new cs (Z.to_nat es) in
        match rv with
        | Err e => Done (Err e)
        | Ok vs => Done (Ok (Array vs))
        end
    end.
Proof. reflexivity. Qed.

(** The array arm once the capacity check and the pointer array pass. *)
Lemma reply_new_array_some n l s es cs :
  es < REPLY_CAPACITY_LIMIT -> es <= Z.of_nat (List.length cs) ->
  reply_new (mkRliteReply RLITE_REPLY_ARRAY n l s es (Some cs)) =
  let! rv := decode_children reply_new cs (Z.to_nat es) in
  match rv with
  | Err e => Done (Err e)
  | Ok vs => Done (Ok (Array vs))
  end.
Proof.
  intros Hcap Hes. rewrite reply_new_array.
  destruct (REPLY_CAPACITY_LIMIT <=? es) eqn:E1; [apply Z.leb_le in E1; lia|].
  destruct (Z.of_nat (List.length cs) <? es) eqn:E2; [apply Z.ltb_lt in E2; lia|].
  reflexivity.
Qed.

(** Fix the tag of a record and unfold one step of [Reply::new]. *)
Ltac on_tag r Ht :=
  destruct r as [rt n l s es el]; simpl in Ht; subst rt; cbn [reply_new];
  unfold wf_bytes, reply_bytes in *; cbn [len st elements element integer] in *.

Ltac use_bytes Hw :=
  let E := fresh "E" in
  pose proof (str_to_vec_wf (mkRliteReply 0 0 _ _ 0 None) Hw) as E;
  cbn [len st reply_bytes] in E; unfold reply_bytes in E; cbn [len st] in E;
  rewrite E; cbn [obind].

(** C1: an array record with a count of zero and a null pointer array
    does not decode to [Array []]: [slice::from_raw_parts] is called on
    the null pointer, which is undefined behaviour even for a length of
    zero.  With a non-null (empty) pointer array the same record decodes
    to [Array []]. *)
Lemma reply_new_empty_array_null :
  reply_new (mkRliteReply RLITE_REPLY_ARRAY 0 0 [] 0 None) = Undef /\
  reply_new (mkRliteReply RLITE_REPLY_ARRAY 0 0 [] 0 (Some [])) = Done (Ok (Array [])).
Proof. split; reflexivity. Qed.

(** [Reply::new] dispatches on the record's tag.  A string record
    decodes to [Data] of a copy of its [len] bytes; a status record to
    [Status] of those bytes read as UTF-8 text; a nil record to [Nil]
    whatever its byte fields hold (no byte is read); an integer record to
    [Integer] of its [integer] field reinterpreted as a signed 64-bit
    value; an array record with a non-null pointer array holding its
    [elements] children (fewer than [REPLY_CAPACITY_LIMIT]), which decode
    to [vs] in order, to [Array vs], [vs] having [elements] entries. *)
Theorem reply_new_dispatch (r : RliteReply) :
  (rtype r = RLITE_REPLY_STRING -> wf_bytes r ->
     reply_new r = Done (Ok (Data (reply_bytes r)))) /\
  (rtype r = RLITE_REPLY_STATUS -> wf_bytes r ->
     forall s, String_from_utf8 (reply_bytes r) = Some s ->
     reply_new r = Done (Ok (Status s))) /\
  (rtype r = RLITE_REPLY_NIL -> reply_new r = Done (Ok Nil)) /\
  (rtype r = RLITE_REPLY_INTEGER ->
     reply_new r = Done (Ok (Integer (u64_as_i64 (integer r))))) /\
  (rtype r = RLITE_REPLY_ARRAY ->
     forall cs, element r = Some cs ->
     0 <= elements r <= Z.of_nat (List.length cs) ->
     elements r < REPLY_CAPACITY_LIMIT ->
     forall vs,
     Forall2 (fun c v => reply_new c = Done (Ok v))
       (firstn (Z.to_nat (elements r)) cs) vs ->
     reply_new r = Done (Ok (Array vs)) /\
     List.length vs = Z.to_nat (elements r)).
Proof.
  split; [|split; [|split; [|split]]]; intros Ht.
  - on_tag r Ht. intros Hw. use_bytes Hw. reflexivity.
  - on_tag r Ht. intros Hw t Ht'. use_bytes Hw.
    unfold from_utf8_unwrap; rewrite Ht'; reflexivity.
  - on_tag r Ht. reflexivity.
  - on_tag r Ht. reflexivity.
  - destruct r as [rt n l s es el]; cbn [rtype elements element] in *; subst rt.
    intros cs -> Hes Hcap vs Hf. rewrite reply_new_array_some by lia.
    rewrite (decode_children_ok reply_new cs (Z.to_nat es) vs) by (lia || assumption).
    split; [reflexivity|].
    apply Forall2_length in Hf. rewrite <- Hf, length_firstn. lia.
Qed.

(** C2 (as amended): an error record whose message bytes are valid UTF-8
    decodes to [Err] of that text, and one whose bytes are not valid
    UTF-8 panics.  In an array record with a non-null pointer array
    holding its count of children (below [REPLY_CAPACITY_LIMIT]), the
    children are decoded in order up to the first one that does not
    decode to a value, the later ones being left undecoded: if that child
    decodes to [Err m], so does the array; if it panics, so does the
    array. *)
Theorem reply_new_error_short_circuit :
  (forall r m, rtype r = RLITE_REPLY_ERROR -> wf_bytes r ->
     String_from_utf8 (reply_bytes r) = Some m ->
     reply_new r = Done (Err m)) /\
  (forall r, rtype r = RLITE_REPLY_ERROR -> wf_bytes r ->
     String_from_utf8 (reply_bytes r) = None ->
     reply_new r = Panic) /\
  (forall n l s es pre c post m,
     Z.of_nat (List.length pre) < es <= Z.of_nat (List.length (pre ++ c :: post)) ->
     es < REPLY_CAPACITY_LIMIT ->
     Forall (fun c' => exists v, reply_new c' = Done (Ok v)) pre ->
     reply_new c = Done (Err m) ->
     reply_new (mkRliteReply RLITE_REPLY_ARRAY n l s es (Some (pre ++ c :: post)))
     = Done (Err m)) /\
  (forall n l s es pre c post,
     Z.of_nat (List.length pre) < es <= Z.of_nat (List.length (pre ++ c :: post)) ->
     es < REPLY_CAPACITY_LIMIT ->
     Forall (fun c' => exists v, reply_new c' = Done (Ok v)) pre ->
     reply_new c = Panic ->
     reply_new (mkRliteReply RLITE_REPLY_ARRAY n l s es (Some (pre ++ c :: post)))
     = Panic).
Proof.
  split; [|split; [|split]].
  - intros r m Ht Hw Hm. on_tag r Ht. use_bytes Hw.
    unfold from_utf8_unwrap; rewrite Hm; reflexivity.
  - intros r Ht Hw Hm. on_tag r Ht. use_bytes Hw.
    unfold from_utf8_unwrap; rewrite Hm; reflexivity.
  - intros n l s es pre c post m Hes Hcap Hpre Hc.
    rewrite reply_new_array_some by lia.
    rewrite (decode_children_err reply_new pre c post (Z.to_nat es) m)
      by (lia || assumption).
    reflexivity.
  - intros n l s es pre c post Hes Hcap Hpre Hc.
    rewrite reply_new_array_some by lia.
    rewrite (decode_children_panic reply_new pre c post (Z.to_nat es))
      by (lia || assumption).
    reflexivity.
Qed.

Lemma parse_fmt_int z : parse_int (fmt_int z) = Some z.
Proof.
  unfold parse_int, fmt_int. rewrite <- (DecimalZ.of_to z) at 2.
  generalize (Z.to_int z) as d. intros [u|u]; destruct u; try reflexivity;
    rewrite NilZero.isi by discriminate; reflexivity.
Qed.

(** C5: a status record decodes to [Status] of its text when its bytes
    are valid UTF-8; otherwise [String::from_utf8(..).unwrap()] panics:
    no [Err] value is returned. *)
Theorem reply_new_status_utf8 (r : RliteReply) :
  rtype r = RLITE_REPLY_STATUS -> wf_bytes r ->
  (forall t, String_from_utf8 (reply_bytes r) = Some t ->
     reply_new r = Done (Ok (Status t))) /\
  (utf8_valid (reply_bytes r) = false -> reply_new r = Panic).
Proof.
  intros Ht Hw. on_tag r Ht. use_bytes Hw. unfold from_utf8_unwrap, String_from_utf8.
  split.
  - intros t Ht'. rewrite Ht'. reflexivity.
  - intros Hv. rewrite Hv. reflexivity.
Qed.

(** C8: a record whose tag is none of the six known ones decodes to
    [Err("Unknown reply type <tag>")], the tag written in decimal; it
    does not panic. *)
Theorem reply_new_unknown_tag (r : RliteReply) :
  ~ In (rtype r) [RLITE_REPLY_STRING; RLITE_REPLY_ARRAY; RLITE_REPLY_INTEGER;
                  RLITE_REPLY_NIL; RLITE_REPLY_STATUS; RLITE_REPLY_ERROR] ->
  reply_new r = Done (Err ("Unknown reply type " ++ fmt_int (rtype r))%string) /\
  parse_int (fmt_int (rtype r)) = Some (rtype r) /\
  reply_new r <> Panic.
Proof.
  intros Hin. rewrite parse_fmt_int.
  assert (Hr : reply_new r = Done (Err ("Unknown reply type " ++ fmt_int (rtype r))%string)).
  { destruct r as [rt n l s es el]; cbn [rtype] in *; cbn [reply_new].
    unfold RLITE_REPLY_STRING, RLITE_REPLY_ARRAY, RLITE_REPLY_INTEGER,
      RLITE_REPLY_NIL, RLITE_REPLY_STATUS, RLITE_REPLY_ERROR in *.
    simpl in Hin.
    destruct (rt =? 1) eqn:E1; [apply Z.eqb_eq in E1; subst; exfalso; apply Hin; simpl; tauto|].
    destruct (rt =? 5) eqn:E5; [apply Z.eqb_eq in E5; subst; exfalso; apply Hin; simpl; tauto|].
    destruct (rt =? 6) eqn:E6; [apply Z.eqb_eq in E6; subst; exfalso; apply Hin; simpl; tauto|].
    destruct (rt =? 4) eqn:E4; [apply Z.eqb_eq in E4; subst; exfalso; apply Hin; simpl; tauto|].
    destruct (rt =? 3) eqn:E3; [apply Z.eqb_eq in E3; subst; exfalso; apply Hin; simpl; tauto|].
    destruct (rt =? 2) eqn:E2; [apply Z.eqb_eq in E2; subst; exfalso; apply Hin; simpl; tauto|].
    reflexivity. }
  rewrite Hr. split; [reflexivity|split; [reflexivity|discriminate]].
Qed.

(** C10: an error record whose message bytes are not valid UTF-8 makes
    [Reply::new] panic ([String::from_utf8(..).unwrap()]), as for the
    status tag, instead of returning the message as an [Err]. *)
Theorem reply_new_error_invalid_utf8_panics (r : RliteReply) :
  rtype r = RLITE_REPLY_ERROR -> wf_bytes r ->
  utf8_valid (reply_bytes r) = false ->
  reply_new r = Panic.
Proof.
  intros Ht Hw Hv. on_tag r Ht. use_bytes Hw.
  unfold from_utf8_unwrap, String_from_utf8. rewrite Hv. reflexivity.
Qed.

(** C2, counterexample: an error record whose message is the single byte
    0xFF panics rather than returning [Err]; so does an array whose first
    child is a status record with that byte, though its second child is
    an error record. *)
Lemma reply_new_error_not_err :
  reply_new (mkRliteReply RLITE_REPLY_ERROR 0 1 [xff] 0 None) = Panic /\
  reply_new (mkRliteReply RLITE_REPLY_ARRAY 0 0 [] 2
    (Some [mkRliteReply RLITE_REPLY_STATUS 0 1 [xff] 0 None;
           mkRliteReply RLITE_REPLY_ERROR 0 1 [x45] 0 None])) = Panic.
Proof. split; reflexivity. Qed.

(** ** The connection *)

Section ConnectionProofs.
Context {E : Type} `{Hirlite E}.

Lemma read_reply_unfold (h : N) (e : E) (lg : list FCall) :
  read_reply (mkRlite h) (mkWorld e lg) =
  let '(rc, p, e1) := rliteGetReply e h in
  let w1 := mkWorld e1 (lg ++ [CGetReply h]) in
  if rc =? 0 then
    if (p =? 0)%N then Done (Ok Nil, w1)
    else
      obind (Reply_new p w1) (fun '(r, w2) =>
        Done (r, mkWorld (rliteFreeReplyObject (engine w2) p)
                         (calls w2 ++ [CFreeReplyObject p])))
  else Done (Err "Failed"%string, w1).
Proof.
  unfold read_reply, bind, ffi, ret; cbn.
  destruct (rliteGetReply e h) as [[rc p] e1]; cbn.
  destruct (rc =? 0); [|reflexivity].
  destruct (p =? 0)%N; [reflexivity|].
  destruct (Reply_new p _) as [[r w2]| |]; reflexivity.
Qed.

Lemma read_reply_null (h : N) (e e1 : E) (lg : list FCall) :
  rliteGetReply e h = (0, 0%N, e1) ->
  read_reply (mkRlite h) (mkWorld e lg) =
  Done (Ok Nil, mkWorld e1 (lg ++ [CGetReply h])).
Proof. intros Hg. rewrite read_reply_unfold, Hg. reflexivity. Qed.

(** C3: when [rliteGetReply] succeeds with a non-null record that
    [Reply::new] decodes, to a value or to an error, [read_reply] returns
    that result; the record is read, then [rliteFreeReplyObject] is called
    on it once, as the last foreign call.  A null record is never freed:
    the only foreign call is [rliteGetReply]. *)
Theorem read_reply_frees_once (h : N) (e e1 : E) (lg : list FCall) :
  (forall p rec res,
     rliteGetReply e h = (0, p, e1) -> p <> 0%N ->
     reply_at e1 p = Some rec -> reply_new rec = Done res ->
     read_reply (mkRlite h) (mkWorld e lg) =
     Done (res, mkWorld (rliteFreeReplyObject e1 p)
                  (lg ++ [CGetReply h; CReadReply p; CFreeReplyObject p]))) /\
  (rliteGetReply e h = (0, 0%N, e1) ->
     exists r w, read_reply (mkRlite h) (mkWorld e lg) = Done (r, w) /\
     calls w = lg ++ [CGetReply h]).
Proof.
  split.
  - intros p rec res Hg Hp Hrec Hdec. rewrite read_reply_unfold, Hg.
    cbn [Z.eqb]. apply N.eqb_neq in Hp. rewrite Hp.
    unfold Reply_new; cbn [engine calls]. rewrite Hrec, Hdec; cbn.
    rewrite <- !app_assoc. reflexivity.
  - intros Hg. rewrite (read_reply_null h e e1 lg Hg). eauto.
Qed.

(** C4: when [rliteGetReply] succeeds with a null pointer, [read_reply]
    returns [Ok(Nil)]; no record is read or freed. *)
Theorem read_reply_null_nil (h : N) (e e1 : E) (lg : list FCall) :
  rliteGetReply e h = (0, 0%N, e1) ->
  read_reply (mkRlite h) (mkWorld e lg) =
  Done (Ok Nil, mkWorld e1 (lg ++ [CGetReply h])).
Proof. apply read_reply_null. Qed.

(** C6 (as amended): when [rliteGetReply] fails, [read_reply] returns
    [Err("Failed")] without reading or freeing a record; that value is
    not the error of an unknown tag. *)
Theorem read_reply_failure (h : N) (e e1 : E) (lg : list FCall) (rc : Z) (p : N) :
  rc <> 0 -> rliteGetReply e h = (rc, p, e1) ->
  read_reply (mkRlite h) (mkWorld e lg) =
  Done (Err "Failed"%string, mkWorld e1 (lg ++ [CGetReply h])) /\
  (forall t, "Failed"%string <> ("Unknown reply type " ++ fmt_int t)%string).
Proof.
  intros Hrc Hg. split.
  - rewrite read_reply_unfold, Hg. apply Z.eqb_neq in Hrc. rewrite Hrc. reflexivity.
  - intros t. discriminate.
Qed.

Lemma c_int_of_usize_small (n : nat) :
  Z.of_nat n < 2 ^ 31 -> c_int_of_usize n = Z.of_nat n.
Proof.
  intros Hn. unfold c_int_of_usize.
  rewrite Z.mod_small by lia.
  destruct (Z.of_nat n >=? 2 ^ 31) eqn:Eb; [|reflexivity].
  apply Z.geb_le in Eb. lia.
Qed.

(** C9: [write_command] passes the engine the argument count ([len as
    c_int]; the number of arguments below 2^31) and the parallel arrays of
    the arguments' pointers and lengths, in order; the only foreign call
    is [rliteAppendCommandArgv], and the result is [Ok] exactly when it
    returns 0, [Err] otherwise.  No reply is fetched or released. *)
Theorem write_command_submits (h : N) (command : list Slice) (e : E) (lg : list FCall) :
  let argc := c_int_of_usize (List.length command) in
  let argv := map as_ptr command in
  let argvlen := map (fun c => Z.of_nat (List.length (bytes c))) command in
  (forall rc e',
     rliteAppendCommandArgv e h argc argv argvlen = (rc, e') ->
     exists r,
     write_command (mkRlite h) command (mkWorld e lg) =
     Done (r, mkWorld e' (lg ++ [CAppendCommandArgv h argc argv argvlen])) /\
     (r = Ok tt <-> rc = 0) /\ (r = Err tt <-> rc <> 0)) /\
  (Z.of_nat (List.length command) < 2 ^ 31 ->
     argc = Z.of_nat (List.length command)) /\
  (forall i c, nth_error command i = Some c ->
     nth_error argv i = Some (as_ptr c) /\
     nth_error argvlen i = Some (Z.of_nat (List.length (bytes c)))).
Proof.
  intros argc argv argvlen. split; [|split].
  - intros rc e' Ha. unfold write_command, bind, ffi, ret; cbn [engine calls].
    cbn [rlite]. fold argc argv argvlen. rewrite Ha; cbn [obind].
    destruct (rc =? 0) eqn:Erc.
    + exists (Ok tt). apply Z.eqb_eq in Erc.
      split; [reflexivity|split; split; intros; congruence].
    + exists (Err tt). apply Z.eqb_neq in Erc.
      split; [reflexivity|split; split; intros; congruence].
  - apply c_int_of_usize_small.
  - intros i c Hc. unfold argv, argvlen.
    rewrite !nth_error_map, Hc. split; reflexivity.
Qed.

(** C7: [Rlite::file] on a path with an interior NUL byte (valid UTF-8,
    but not representable as a C string) panics in
    [CString::new(f).unwrap()], before any foreign call; the sibling path
    for a location that is not valid UTF-8 returns [Err] instead. *)
Theorem file_nul_path_panics (w : World E) :
  file [x61; x00; x62] w = Panic /\
  file [xff] w = Done (Err tt, w).
Proof. split; reflexivity. Qed.

End ConnectionProofs.

(** C6, counterexample: the engine's failure and an engine error reply
    whose message is "Failed" give [read_reply] the same result. *)
Lemma read_reply_failed_ambiguous :
  exists w1 w2,
  read_reply (mkRlite 1)
    (mkWorld (Scripted.mkState 1 0 [(1, 0%N)] [] []) []) =
  Done (Err "Failed"%string, w1) /\
  read_reply (mkRlite 1)
    (mkWorld (Scripted.mkState 1 0 [(0, 8%N)]
       [(8%N, mkRliteReply RLITE_REPLY_ERROR 0 6 [x46; x61; x69; x6c; x65; x64] 0 None)]
       []) []) =
  Done (Err "Failed"%string, w2).
Proof. do 2 eexists. split; reflexivity. Qed.

(** ** Further properties of the decoder *)

Lemma str_to_vec_firstn l s :
  str_to_vec l (firstn (Z.to_nat l) s) = str_to_vec l s.
Proof.
  unfold str_to_vec. destruct (l <? 0) eqn:Hl; [reflexivity|].
  apply Z.ltb_ge in Hl. rewrite length_firstn.
  destruct (Z.of_nat (List.length s) <? l) eqn:Hs.
  - apply Z.ltb_lt in Hs. destruct (Z.of_nat (Init.Nat.min (Z.to_nat l) (List.length s)) <? l) eqn:Hm;
      [reflexivity|apply Z.ltb_ge in Hm; lia].
  - apply Z.ltb_ge in Hs. destruct (Z.of_nat (Init.Nat.min (Z.to_nat l) (List.length s)) <? l) eqn:Hm;
      [apply Z.ltb_lt in Hm; lia|].
    rewrite firstn_firstn, Nat.min_id. reflexivity.
Qed.

Lemma decode_children_trim el :
  Forall (fun c => reply_new (trim c) = reply_new c) el ->
  forall k k', (k <= k')%nat ->
  decode_children reply_new (firstn k' (map trim el)) k = decode_children reply_new el k.
Proof.
  induction el as [|c el IHel]; intros Hf [|k] [|k'] Hk; simpl; try reflexivity; try lia.
  inversion Hf as [|? ? Hc Hf']; subst. rewrite Hc.
  destruct (reply_new c) as [[v|e]| |]; cbn [obind]; try reflexivity.
  rewrite (IHel Hf' k k') by lia. reflexivity.
Qed.

(** [Reply::new] reads no byte past the [len] bytes at [st] and no record
    past the first [elements] of a pointer array, at any depth: cutting
    the record down to that part does not change the outcome. *)
Theorem reply_new_reads_only_trim (r : RliteReply) :
  reply_new (trim r) = reply_new r.
Proof.
  induction r as [rt n l s es el Hel] using RliteReply_ind'.
  cbn [trim reply_new].
  rewrite !str_to_vec_firstn.
  destruct (rt =? RLITE_REPLY_STRING); [reflexivity|].
  destruct (rt =? RLITE_REPLY_STATUS); [reflexivity|].
  destruct (rt =? RLITE_REPLY_ERROR); [reflexivity|].
  destruct (rt =? RLITE_REPLY_NIL); [reflexivity|].
  destruct (rt =? RLITE_REPLY_INTEGER); [reflexivity|].
  destruct (rt =? RLITE_REPLY_ARRAY); [|reflexivity].
  destruct (REPLY_CAPACITY_LIMIT <=? es); [reflexivity|].
  destruct el as [cs|]; [|reflexivity]. cbn [option_map oForall] in *.
  rewrite length_firstn, length_map.
  destruct (Z.of_nat (List.length cs) <? es) eqn:Hlt.
  - apply Z.ltb_lt in Hlt.
    destruct (Z.of_nat (Init.Nat.min (Z.to_nat es) (List.length cs)) <? es) eqn:Hm;
      [reflexivity|apply Z.ltb_ge in Hm; lia].
  - apply Z.ltb_ge in Hlt.
    destruct (Z.of_nat (Init.Nat.min (Z.to_nat es) (List.length cs)) <? es) eqn:Hm;
      [apply Z.ltb_lt in Hm; lia|].
    rewrite (decode_children_trim cs Hel (Z.to_nat es) (Z.to_nat es)) by lia.
    reflexivity.
Qed.

Lemma tag_cases rt :
  rt = 1 \/ rt = 2 \/ rt = 3 \/ rt = 4 \/ rt = 5 \/ rt = 6 \/
  ((rt =? 1) = false /\ (rt =? 2) = false /\ (rt =? 3) = false /\
   (rt =? 4) = false /\ (rt =? 5) = false /\ (rt =? 6) = false).
Proof.
  destruct (Z.eqb_spec rt 1); [tauto|]. destruct (Z.eqb_spec rt 2); [tauto|].
  destruct (Z.eqb_spec rt 3); [tauto|]. destruct (Z.eqb_spec rt 4); [tauto|].
  destruct (Z.eqb_spec rt 5); [tauto|]. destruct (Z.eqb_spec rt 6); [tauto|].
  right; right; right; right; right; right; repeat split.
Qed.

(** Split on the tag [rt]: the six known tags and the rest. *)
Ltac tag_split rt :=
  unfold string_like, text_tag in *;
  unfold RLITE_REPLY_STRING, RLITE_REPLY_ARRAY, RLITE_REPLY_INTEGER,
    RLITE_REPLY_NIL, RLITE_REPLY_STATUS, RLITE_REPLY_ERROR in *;
  let E1 := fresh "E" in let E2 := fresh "E" in let E3 := fresh "E" in
  let E4 := fresh "E" in let E5 := fresh "E" in let E6 := fresh "E" in
  destruct (tag_cases rt) as [->|[->|[->|[->|[->|[->|(E1&E2&E3&E4&E5&E6)]]]]]];
  [..|rewrite ?E1, ?E2, ?E3, ?E4, ?E5, ?E6 in *];
  cbn [Z.eqb Pos.eqb orb andb] in *.

Lemma str_to_vec_ok l s :
  0 <= l <= Z.of_nat (List.length s) -> str_to_vec l s = Done (firstn (Z.to_nat l) s).
Proof.
  intros Hl. unfold str_to_vec.
  destruct (l <? 0) eqn:E1; [apply Z.ltb_lt in E1; lia|].
  destruct (Z.of_nat (List.length s) <? l) eqn:E2; [apply Z.ltb_lt in E2; lia|reflexivity].
Qed.

Lemma children_ok_length f cs k :
  children_ok f cs k = true -> (k <= List.length cs)%nat.
Proof.
  revert k; induction cs as [|c cs IH]; intros [|k] Hk; simpl in *;
    try lia; try discriminate.
  apply andb_prop in Hk as [_ Hk]. specialize (IH k Hk). lia.
Qed.

Lemma decode_children_done cs :
  Forall (fun c => wf_record c = true -> exists res, reply_new c = Done res) cs ->
  forall k, children_ok wf_record cs k = true ->
  exists res, decode_children reply_new cs k = Done res.
Proof.
  induction cs as [|c cs IH]; intros Hf [|k] Hk; simpl in *;
    try discriminate; try (eexists; reflexivity).
  inversion Hf as [|? ? Hc Hf']; subst.
  apply andb_prop in Hk as [Hc' Hk].
  destruct (Hc Hc') as [[v|e] ->]; cbn [obind]; [|eexists; reflexivity].
  destruct (IH Hf' k Hk) as [[vs|e] ->]; eexists; reflexivity.
Qed.

Lemma reply_new_wf_done (r : RliteReply) :
  wf_record r = true -> exists res, reply_new r = Done res.
Proof.
  induction r as [rt n l s es el Hel] using RliteReply_ind'.
  intros Hwf. cbn [wf_record] in Hwf. cbn [reply_new].
  tag_split rt; rewrite ?andb_true_r in Hwf;
    repeat match goal with
    | H : andb _ _ = true |- _ => apply andb_prop in H as [? ?]
    | H : (_ <=? _) = true |- _ => apply Z.leb_le in H
    end.
  - rewrite str_to_vec_ok by lia. eexists; reflexivity.
  - apply Z.ltb_lt in H1.
    destruct (REPLY_CAPACITY_LIMIT <=? es) eqn:Hcap; [apply Z.leb_le in Hcap; lia|].
    destruct el as [cs|]; [|discriminate H0]. cbn [oForall] in Hel.
    destruct (Z.of_nat (List.length cs) <? es) eqn:Hlt.
    + apply children_ok_length in H0. apply Z.ltb_lt in Hlt. lia.
    + destruct (decode_children_done cs Hel (Z.to_nat es) H0) as [[vs|e] ->];
        eexists; reflexivity.
  - eexists; reflexivity.
  - eexists; reflexivity.
  - rewrite str_to_vec_ok by lia. cbn [obind].
    unfold from_utf8_unwrap, String_from_utf8.
    match goal with H : utf8_valid _ = true |- _ => rewrite H end. eexists; reflexivity.
  - rewrite str_to_vec_ok by lia. cbn [obind].
    unfold from_utf8_unwrap, String_from_utf8.
    match goal with H : utf8_valid _ = true |- _ => rewrite H end. eexists; reflexivity.
  - eexists; reflexivity.
Qed.

(** A well-formed record ([wf_record]: lengths within the readable bytes,
    array counts below [REPLY_CAPACITY_LIMIT] over non-null pointer arrays
    holding that many records, status and error text valid UTF-8, at
    every depth)
    never makes [Reply::new] panic or run into undefined behaviour: it
    returns a value or an error. *)
Theorem reply_new_wf_no_fault (r : RliteReply) :
  wf_record r = true ->
  reply_new r <> Panic /\ reply_new r <> Undef.
Proof.
  intros Hwf. destruct (reply_new_wf_done r Hwf) as [res ->].
  split; discriminate.
Qed.

(** [Reply::new] returns a value only for the five value tags, and the
    variant matches the tag: [Data] for a string record, [Status] for a
    status record, and so on; an error record, or one with an unknown
    tag, never decodes to a value. *)
Theorem reply_new_ok_tag (r : RliteReply) (v : Reply) :
  reply_new r = Done (Ok v) -> reply_tag v = rtype r.
Proof.
  destruct r as [rt n l s es el]; cbn [reply_new rtype]; intros H.
  tag_split rt; try discriminate H.
  - destruct (str_to_vec l s); cbn [obind] in H; inversion H; reflexivity.
  - destruct (REPLY_CAPACITY_LIMIT <=? es); [discriminate H|].
    destruct el as [cs|]; [|discriminate H].
    destruct (Z.of_nat (List.length cs) <? es); [discriminate H|].
    destruct (decode_children reply_new cs (Z.to_nat es)) as [[vs|e]| |];
      cbn [obind] in H; inversion H; reflexivity.
  - inversion H; reflexivity.
  - inversion H; reflexivity.
  - destruct (str_to_vec l s); cbn [obind] in H; try discriminate H.
    unfold from_utf8_unwrap in H.
    destruct (String_from_utf8 _); cbn [obind] in H; inversion H; reflexivity.
  - destruct (str_to_vec l s); cbn [obind] in H; try discriminate H.
    unfold from_utf8_unwrap in H.
    destruct (String_from_utf8 _); cbn [obind] in H; discriminate H.
Qed.

(** An integer record whose field holds an unsigned 64-bit value decodes
    to the signed 64-bit integer with the same bits: the value itself
    below 2^63, the value minus 2^64 from 2^63 on. *)
Theorem reply_new_integer_i64 (r : RliteReply) :
  rtype r = RLITE_REPLY_INTEGER -> 0 <= integer r < 2 ^ 64 ->
  exists z, reply_new r = Done (Ok (Integer z)) /\
    - 2 ^ 63 <= z < 2 ^ 63 /\ z mod 2 ^ 64 = integer r /\
    (integer r < 2 ^ 63 -> z = integer r) /\
    (2 ^ 63 <= integer r -> z = integer r - 2 ^ 64).
Proof.
  intros Ht Hn. on_tag r Ht. exists (u64_as_i64 n). split; [reflexivity|].
  unfold u64_as_i64. rewrite Z.mod_small by lia.
  destruct (n >=? 2 ^ 63) eqn:Hge.
  - apply Z.geb_le in Hge. repeat split; try lia.
    symmetry; apply Z.mod_unique with (q := -1); lia.
  - rewrite Z.geb_leb in Hge. apply Z.leb_gt in Hge. repeat split; try lia.
    apply Z.mod_small; lia.
Qed.

(** An array record with a count of zero and a non-null pointer array
    decodes to the empty array, which is not [Nil], whatever the pointer
    array holds (it may be empty); with a null pointer array the same
    record is undefined behaviour ([slice::from_raw_parts] on null). *)
Theorem reply_new_empty_array n l s cs :
  reply_new (mkRliteReply RLITE_REPLY_ARRAY n l s 0 (Some cs)) = Done (Ok (Array [])) /\
  reply_new (mkRliteReply RLITE_REPLY_ARRAY n l s 0 None) = Undef /\
  Array [] <> Nil.
Proof.
  split; [|split; [reflexivity|discriminate]].
  rewrite reply_new_array_some by (unfold REPLY_CAPACITY_LIMIT; lia).
  destruct cs; reflexivity.
Qed.

(** Ill-formed records: a string, status or error record with a negative
    [len] panics (the allocation of [len as usize] bytes overflows); one
    whose [len] exceeds the readable bytes is undefined behaviour.  An
    array record whose count reaches [REPLY_CAPACITY_LIMIT] panics in
    [Vec::with_capacity], before its pointer array is touched; one with a
    count of zero and a null pointer array is undefined behaviour. *)
Theorem reply_new_ill_formed :
  (forall r, string_like (rtype r) = true -> len r < 0 -> reply_new r = Panic) /\
  (forall r, string_like (rtype r) = true -> 0 <= len r ->
     Z.of_nat (List.length (st r)) < len r -> reply_new r = Undef) /\
  (forall r, rtype r = RLITE_REPLY_ARRAY ->
     REPLY_CAPACITY_LIMIT <= elements r -> reply_new r = Panic) /\
  (forall r, rtype r = RLITE_REPLY_ARRAY -> elements r = 0 ->
     element r = None -> reply_new r = Undef).
Proof.
  split; [|split; [|split]].
  - intros [rt n l s es el] Ht Hl; cbn [rtype len] in *; cbn [reply_new].
    assert (Hp : str_to_vec l s = Panic).
    { unfold str_to_vec. destruct (l <? 0) eqn:E; [reflexivity|apply Z.ltb_ge in E; lia]. }
    rewrite Hp. tag_split rt; try discriminate Ht; reflexivity.
  - intros [rt n l s es el] Ht Hl Hs; cbn [rtype len st] in *; cbn [reply_new].
    assert (Hu : str_to_vec l s = Undef).
    { unfold str_to_vec. destruct (l <? 0) eqn:E; [apply Z.ltb_lt in E; lia|].
      destruct (Z.of_nat (List.length s) <? l) eqn:E'; [reflexivity|apply Z.ltb_ge in E'; lia]. }
    rewrite Hu. tag_split rt; try discriminate Ht; reflexivity.
  - intros [rt n l s es el] Ht Hes; cbn [rtype element elements] in *. subst rt.
    rewrite reply_new_array.
    destruct (REPLY_CAPACITY_LIMIT <=? es) eqn:E; [reflexivity|apply Z.leb_gt in E; lia].
  - intros [rt n l s es el] Ht Hes Hel; cbn [rtype element elements] in *.
    subst rt es el. reflexivity.
Qed.

Lemma utf8_valid_ascii (l : list byte) :
  Forall (fun b => (Byte.to_nat b < 128)%nat) l -> utf8_valid l = true.
Proof.
  induction l as [|b l IH]; intros Hf; [reflexivity|].
  inversion Hf as [|? ? Hb Hf']; subst. cbn [utf8_valid].
  assert (Hr : in_range 0 127 b = true).
  { unfold in_range. apply andb_true_intro; split; apply Nat.leb_le; lia. }
  rewrite Hr. apply IH, Hf'.
Qed.

(** Status and error text made of ASCII bytes never makes [Reply::new]
    panic: a status record decodes to [Status] and an error record to
    [Err] of that text. *)
Theorem reply_new_ascii_text (r : RliteReply) :
  wf_bytes r -> Forall (fun b => (Byte.to_nat b < 128)%nat) (reply_bytes r) ->
  (rtype r = RLITE_REPLY_STATUS ->
     reply_new r = Done (Ok (Status (string_of_bytes (reply_bytes r))))) /\
  (rtype r = RLITE_REPLY_ERROR ->
     reply_new r = Done (Err (string_of_bytes (reply_bytes r)))).
Proof.
  intros Hw Ha. apply utf8_valid_ascii in Ha.
  split; intros Ht; on_tag r Ht; use_bytes Hw;
    unfold from_utf8_unwrap, String_from_utf8; rewrite Ha; reflexivity.
Qed.

(** ** Further properties of the connection *)

Definition has_nul (l : list byte) : bool := existsb (fun b => Byte.eqb b x00) l.

Lemma c_string_at_app c rest :
  has_nul c = false -> c_string_at (c ++ x00 :: rest) = Done c.
Proof.
  induction c as [|b c IH]; intros Hc; [reflexivity|].
  cbn [has_nul existsb] in Hc. apply orb_false_iff in Hc as [Hb Hc].
  cbn [app c_string_at]. rewrite Hb, (IH Hc). reflexivity.
Qed.

Lemma c_string_at_no_nul m : has_nul m = false -> c_string_at m = Undef.
Proof.
  induction m as [|b m IH]; intros Hm; [reflexivity|].
  cbn [has_nul existsb] in Hm. apply orb_false_iff in Hm as [Hb Hm].
  cbn [c_string_at]. rewrite Hb, (IH Hm). reflexivity.
Qed.

Lemma c_string_at_memory after :
  c_string_at (memory_literal ++ after) =
  let! t := c_string_at after in Done (memory_literal ++ t).
Proof. destruct (c_string_at after) eqn:E; cbn; rewrite E; reflexivity. Qed.

Section ConnectionMore.
Context {E : Type} `{Hirlite E}.

(** [Rlite::memory] hands [rliteConnect] the path [":memory:"] followed by
    the bytes after the literal in memory, up to the first NUL: the path
    is [":memory:"] only when the next byte is NUL; with no NUL in
    readable memory the read is undefined.  The handle that comes back
    is wrapped as it is, even when null. *)
Theorem memory_path (after : list byte) (e : E) (lg : list FCall) :
  (forall c rest, has_nul c = false -> after = c ++ x00 :: rest ->
     memory after (mkWorld e lg) =
     let '(h, e') := rliteConnect e (memory_literal ++ c) 0 in
     Done (mkRlite h, mkWorld e' (lg ++ [CConnect (memory_literal ++ c) 0]))) /\
  (has_nul after = false -> memory after (mkWorld e lg) = Undef).
Proof.
  split.
  - intros c rest Hc ->. unfold memory.
    rewrite c_string_at_memory, (c_string_at_app c rest Hc). cbn [obind].
    unfold bind, ffi, ret; cbn [engine calls].
    destruct (rliteConnect e (memory_literal ++ c) 0); reflexivity.
  - intros Hn. unfold memory. rewrite c_string_at_memory, (c_string_at_no_nul after Hn).
    reflexivity.
Qed.

(** [Rlite::file]: a path that is not valid UTF-8 gives [Err] with no
    foreign call; a valid path without NUL is passed to [rliteConnect]
    with port 0, and the result is [Err] when the handle is null, [Ok]
    of a connection holding the handle otherwise. *)
Theorem file_open (path : list byte) (e : E) (lg : list FCall) :
  (utf8_valid path = false -> file path (mkWorld e lg) = Done (Err tt, mkWorld e lg)) /\
  (utf8_valid path = true -> has_nul path = false ->
     file path (mkWorld e lg) =
     let '(h, e') := rliteConnect e path 0 in
     Done (if (h =? 0)%N then Err tt else Ok (mkRlite h),
           mkWorld e' (lg ++ [CConnect path 0]))).
Proof.
  split; intros Hv.
  - unfold file, Path_to_str. rewrite Hv. reflexivity.
  - intros Hn. unfold file, Path_to_str, CString_new. rewrite Hv.
    unfold has_nul in Hn. rewrite Hn.
    unfold bind, ffi, ret; cbn [engine calls].
    destruct (rliteConnect e path 0) as [h e']; cbn [obind].
    destruct (h =? 0)%N; reflexivity.
Qed.

(** A connection [Rlite::file] returns holds the non-null handle
    [rliteConnect] gave for that path; dropping it calls [rliteFree] on
    that handle, once, after the connect call. *)
Theorem file_then_drop (path : list byte) (e : E) (lg : list FCall) (c : Rlite) (w : World E) :
  file path (mkWorld e lg) = Done (Ok c, w) ->
  exists e', rliteConnect e path 0 = (rlite c, e') /\ rlite c <> 0%N /\
    w = mkWorld e' (lg ++ [CConnect path 0]) /\
    drop c w = Done (tt, mkWorld (rliteFree e' (rlite c))
                           (lg ++ [CConnect path 0; CFree (rlite c)])).
Proof.
  unfold file, Path_to_str, CString_new.
  destruct (utf8_valid path); [|discriminate].
  destruct (existsb _ path); [discriminate|].
  unfold bind, ffi, ret; cbn [engine calls].
  destruct (rliteConnect e path 0) as [h e'] eqn:Hc; cbn [obind].
  destruct (h =? 0)%N eqn:Hh; [discriminate|].
  intros Heq; injection Heq as <- <-. cbn [rlite].
  exists e'. apply N.eqb_neq in Hh. repeat split; auto.
  unfold drop, ffi; cbn. rewrite <- app_assoc. reflexivity.
Qed.

Lemma c_int_of_usize_range (n : nat) :
  - 2 ^ 31 <= c_int_of_usize n < 2 ^ 31 /\
  c_int_of_usize n mod 2 ^ 32 = Z.of_nat n mod 2 ^ 32.
Proof.
  unfold c_int_of_usize.
  pose proof (Z.mod_pos_bound (Z.of_nat n) (2 ^ 32) ltac:(lia)) as Hb.
  destruct (Z.of_nat n mod 2 ^ 32 >=? 2 ^ 31) eqn:Hge.
  - apply Z.geb_le in Hge. split; [lia|].
    replace (Z.of_nat n mod 2 ^ 32 - 2 ^ 32) with (Z.of_nat n mod 2 ^ 32 + (-1) * 2 ^ 32) by ring.
    rewrite Z.mod_add by lia. apply Z.mod_mod; lia.
  - rewrite Z.geb_leb in Hge. apply Z.leb_gt in Hge. split; [lia|].
    apply Z.mod_mod; lia.
Qed.

(** The argument count [write_command] passes is [command.len() as
    c_int]: within the [c_int] range and equal to the number of
    arguments modulo 2^32; an empty command is not rejected but passed
    with a count of 0 and empty arrays. *)
Theorem write_command_count (h : N) (command : list Slice) (e : E) (lg : list FCall)
    (r : result unit unit) (w : World E) :
  write_command (mkRlite h) command (mkWorld e lg) = Done (r, w) ->
  exists argc argv argvlen,
    calls w = lg ++ [CAppendCommandArgv h argc argv argvlen] /\
    - 2 ^ 31 <= argc < 2 ^ 31 /\
    argc mod 2 ^ 32 = Z.of_nat (List.length command) mod 2 ^ 32 /\
    (command = [] -> argc = 0 /\ argv = [] /\ argvlen = []).
Proof.
  unfold write_command, bind, ffi, ret; cbn [engine calls rlite].
  destruct (rliteAppendCommandArgv _ _ _ _ _) as [rc e'].
  cbn [obind]. intros Hw.
  assert (Hc : calls w = lg ++ [CAppendCommandArgv h (c_int_of_usize (List.length command))
                                 (map as_ptr command)
                                 (map (fun c => Z.of_nat (List.length (bytes c))) command)]).
  { destruct (rc =? 0); injection Hw as _ <-; reflexivity. }
  do 3 eexists. split; [exact Hc|].
  destruct (c_int_of_usize_range (List.length command)) as [Hr Hm].
  split; [exact Hr|split; [exact Hm|]].
  intros ->. repeat split.
Qed.

(** When the fetched record makes [Reply::new] panic, [read_reply]
    panics (no result is returned); a non-null pointer to no live record
    is undefined behaviour. *)
Theorem read_reply_decode_fault (h : N) (e e1 : E) (lg : list FCall) (p : N) :
  rliteGetReply e h = (0, p, e1) -> p <> 0%N ->
  (reply_at e1 p = None -> read_reply (mkRlite h) (mkWorld e lg) = Undef) /\
  (forall rec, reply_at e1 p = Some rec -> reply_new rec = Panic ->
     read_reply (mkRlite h) (mkWorld e lg) = Panic).
Proof.
  intros Hg Hp. apply N.eqb_neq in Hp.
  split; [intros Hr|intros rec Hr Hd];
    rewrite read_reply_unfold, Hg; cbn [Z.eqb]; rewrite Hp;
    unfold Reply_new; cbn [engine]; rewrite Hr; [reflexivity|].
  rewrite Hd. reflexivity.
Qed.

(** When the fetched record is well-formed ([wf_record]), [read_reply]
    returns a value or an error, and its foreign interactions are the
    fetch, the read of the record and one release of it. *)
Theorem read_reply_wf (h : N) (e e1 : E) (lg : list FCall) (p : N) (rec : RliteReply) :
  rliteGetReply e h = (0, p, e1) -> p <> 0%N -> reply_at e1 p = Some rec ->
  wf_record rec = true ->
  exists res, read_reply (mkRlite h) (mkWorld e lg) =
    Done (res, mkWorld (rliteFreeReplyObject e1 p)
                 (lg ++ [CGetReply h; CReadReply p; CFreeReplyObject p])).
Proof.
  intros Hg Hp Hr Hwf. destruct (reply_new_wf_done rec Hwf) as [res Hd].
  exists res. apply N.eqb_neq in Hp.
  rewrite read_reply_unfold, Hg; cbn [Z.eqb]; rewrite Hp.
  unfold Reply_new; cbn [engine calls]. rewrite Hr, Hd; cbn.
  rewrite <- !app_assoc. reflexivity.
Qed.

End ConnectionMore.

(** ** The theorems at concrete inputs *)

Definition rec_nil : RliteReply := mkRliteReply RLITE_REPLY_NIL 0 0 [] 0 None.
Definition rec_status_ok : RliteReply := mkRliteReply RLITE_REPLY_STATUS 0 2 [x4f; x4b] 0 None.
Definition rec_bad_status : RliteReply := mkRliteReply RLITE_REPLY_STATUS 0 1 [xff] 0 None.
Definition rec_err_e : RliteReply := mkRliteReply RLITE_REPLY_ERROR 0 1 [x45] 0 None.
Definition rec_bad_err : RliteReply := mkRliteReply RLITE_REPLY_ERROR 0 1 [xff] 0 None.

Lemma reply_new_dispatch_witness :
  reply_new (mkRliteReply RLITE_REPLY_STRING 0 2 [x61; x62; x63] 0 None)
  = Done (Ok (Data [x61; x62])) /\
  reply_new (mkRliteReply RLITE_REPLY_ARRAY 0 0 [] 1 (Some [rec_nil; rec_bad_err]))
  = Done (Ok (Array [Nil])).
Proof.
  split.
  - destruct (reply_new_dispatch (mkRliteReply RLITE_REPLY_STRING 0 2 [x61; x62; x63] 0 None))
      as (Hs & _).
    apply (Hs eq_refl). unfold wf_bytes; simpl; lia.
  - destruct (reply_new_dispatch
                (mkRliteReply RLITE_REPLY_ARRAY 0 0 [] 1 (Some [rec_nil; rec_bad_err])))
      as (_ & _ & _ & _ & Ha).
    refine (proj1 (Ha eq_refl [rec_nil; rec_bad_err] eq_refl _ _ [Nil] _));
      [simpl; lia|unfold REPLY_CAPACITY_LIMIT; simpl; lia|simpl; repeat constructor].
Defined.

Lemma reply_new_error_short_circuit_witness :
  reply_new rec_err_e = Done (Err "E"%string) /\
  reply_new rec_bad_err = Panic /\
  reply_new (mkRliteReply RLITE_REPLY_ARRAY 0 0 [] 3 (Some [rec_nil; rec_err_e; rec_bad_err]))
  = Done (Err "E"%string) /\
  reply_new (mkRliteReply RLITE_REPLY_ARRAY 0 0 [] 3 (Some [rec_nil; rec_bad_err; rec_err_e]))
  = Panic.
Proof.
  destruct reply_new_error_short_circuit as (He & Hp & Ha & Hpa).
  split; [|split; [|split]].
  - apply He; [reflexivity|unfold wf_bytes; simpl; lia|reflexivity].
  - apply Hp; [reflexivity|unfold wf_bytes; simpl; lia|reflexivity].
  - apply (Ha 0 0 [] 3 [rec_nil] rec_err_e [rec_bad_err]);
      [simpl; lia|unfold REPLY_CAPACITY_LIMIT; lia| |reflexivity].
    constructor; [exists Nil; reflexivity|constructor].
  - apply (Hpa 0 0 [] 3 [rec_nil] rec_bad_err [rec_err_e]);
      [simpl; lia|unfold REPLY_CAPACITY_LIMIT; lia| |reflexivity].
    constructor; [exists Nil; reflexivity|constructor].
Defined.

Definition world_with (pending : list (Z * N)) (heap : list (N * RliteReply))
  : World Scripted.State :=
  mkWorld (Scripted.mkState 1 0 pending heap []) [].

Lemma read_reply_frees_once_witness :
  read_reply (mkRlite 1) (world_with [(0, 8%N)] [(8%N, rec_status_ok)]) =
  Done (Ok (Status "OK"), mkWorld (Scripted.mkState 1 0 [] [] [8%N])
                            [CGetReply 1; CReadReply 8; CFreeReplyObject 8]).
Proof.
  etransitivity.
  - apply (proj1 (read_reply_frees_once 1 (Scripted.mkState 1 0 [(0, 8%N)] [(8%N, rec_status_ok)] [])
                    (Scripted.mkState 1 0 [] [(8%N, rec_status_ok)] []) [])
             8%N rec_status_ok (Ok (Status "OK"))); [reflexivity|discriminate|reflexivity|reflexivity].
  - reflexivity.
Defined.

Lemma read_reply_null_nil_witness :
  read_reply (mkRlite 1) (world_with [(0, 0%N)] []) =
  Done (Ok Nil, mkWorld (Scripted.mkState 1 0 [] [] []) [CGetReply 1]).
Proof.
  apply (read_reply_null_nil 1 (Scripted.mkState 1 0 [(0, 0%N)] [] [])
           (Scripted.mkState 1 0 [] [] []) []).
  reflexivity.
Defined.

Lemma reply_new_status_utf8_witness :
  reply_new rec_status_ok = Done (Ok (Status "OK")) /\ reply_new rec_bad_status = Panic.
Proof.
  split.
  - apply (proj1 (reply_new_status_utf8 rec_status_ok eq_refl
                    ltac:(unfold wf_bytes; simpl; lia))).
    reflexivity.
  - apply (proj2 (reply_new_status_utf8 rec_bad_status eq_refl
                    ltac:(unfold wf_bytes; simpl; lia))).
    reflexivity.
Defined.

Lemma read_reply_failure_witness :
  read_reply (mkRlite 1) (world_with [(1, 0%N)] []) =
  Done (Err "Failed"%string, mkWorld (Scripted.mkState 1 0 [] [] []) [CGetReply 1]).
Proof.
  apply (proj1 (@read_reply_failure Scripted.State Scripted.hirlite 1
                  (Scripted.mkState 1 0 [(1, 0%N)] [] [])
                  (Scripted.mkState 1 0 [] [] []) [] 1 0%N ltac:(lia) eq_refl)).
Defined.

Lemma reply_new_unknown_tag_witness :
  reply_new (mkRliteReply 7 0 0 [] 0 None) = Done (Err "Unknown reply type 7"%string).
Proof.
  apply (proj1 (reply_new_unknown_tag (mkRliteReply 7 0 0 [] 0 None)
    ltac:(unfold RLITE_REPLY_STRING, RLITE_REPLY_ARRAY, RLITE_REPLY_INTEGER,
            RLITE_REPLY_NIL, RLITE_REPLY_STATUS, RLITE_REPLY_ERROR; simpl; lia))).
Defined.

Lemma write_command_submits_witness :
  write_command (mkRlite 1) [mkSlice 100 [x67; x65; x74]; mkSlice 200 [x6b]]
    (world_with [] []) =
  Done (Ok tt, mkWorld (Scripted.mkState 1 0 [] [] [])
                 [CAppendCommandArgv 1 2 [100%N; 200%N] [3; 1]]).
Proof.
  destruct (write_command_submits 1 [mkSlice 100 [x67; x65; x74]; mkSlice 200 [x6b]]
              (Scripted.mkState 1 0 [] [] []) []) as (Hw & _ & _).
  destruct (Hw 0 (Scripted.mkState 1 0 [] [] []) eq_refl) as (r & Hr & Hok & _).
  unfold world_with. rewrite Hr.
  assert (r = Ok tt) as -> by (apply Hok; reflexivity). reflexivity.
Defined.

Lemma reply_new_error_invalid_utf8_panics_witness :
  reply_new rec_bad_err = Panic.
Proof.
  apply reply_new_error_invalid_utf8_panics;
    [reflexivity|unfold wf_bytes; simpl; lia|reflexivity].
Defined.

Definition rec_nested : RliteReply :=
  mkRliteReply RLITE_REPLY_ARRAY 0 0 [] 2
    (Some [rec_status_ok; mkRliteReply RLITE_REPLY_ARRAY 0 0 [] 1 (Some [rec_err_e])]).

Lemma reply_new_wf_no_fault_witness :
  wf_record rec_nested = true /\ reply_new rec_nested <> Panic.
Proof.
  split; [reflexivity|].
  exact (proj1 (reply_new_wf_no_fault rec_nested eq_refl)).
Defined.

Lemma reply_new_ok_tag_witness :
  reply_tag (Status "OK") = rtype rec_status_ok.
Proof. apply reply_new_ok_tag. reflexivity. Defined.

Lemma reply_new_integer_i64_witness :
  reply_new (mkRliteReply RLITE_REPLY_INTEGER (2 ^ 63) 0 [] 0 None)
  = Done (Ok (Integer (- 2 ^ 63))).
Proof.
  destruct (reply_new_integer_i64 (mkRliteReply RLITE_REPLY_INTEGER (2 ^ 63) 0 [] 0 None)
              eq_refl ltac:(simpl; lia)) as (z & Hz & _ & _ & _ & Hhi).
  rewrite Hz, Hhi by (simpl; lia). reflexivity.
Defined.

Lemma reply_new_ill_formed_witness :
  reply_new (mkRliteReply RLITE_REPLY_STRING 0 (-1) [] 0 None) = Panic /\
  reply_new (mkRliteReply RLITE_REPLY_STATUS 0 3 [x4f] 0 None) = Undef /\
  reply_new (mkRliteReply RLITE_REPLY_ARRAY 0 0 [] (2 ^ 58) (Some [rec_nil])) = Panic /\
  reply_new (mkRliteReply RLITE_REPLY_ARRAY 0 0 [] 0 None) = Undef.
Proof.
  destruct reply_new_ill_formed as (Hp & Hu & Ha & Hn).
  split; [|split; [|split]].
  - apply Hp; [reflexivity|simpl; lia].
  - apply Hu; [reflexivity|simpl; lia|simpl; lia].
  - apply Ha; [reflexivity|unfold REPLY_CAPACITY_LIMIT; simpl; lia].
  - apply Hn; reflexivity.
Defined.

Lemma reply_new_ascii_text_witness :
  reply_new rec_err_e = Done (Err "E"%string).
Proof.
  apply (proj2 (reply_new_ascii_text rec_err_e
                  ltac:(unfold wf_bytes; simpl; lia)
                  ltac:(simpl; repeat constructor))).
  reflexivity.
Defined.

Lemma memory_path_witness :
  memory [x00; x41] (world_with [] []) =
  Done (mkRlite 1, mkWorld (Scripted.mkState 1 0 [] [] []) [CConnect memory_literal 0]) /\
  memory [x41] (world_with [] []) = Undef.
Proof.
  destruct (memory_path [x00; x41] (Scripted.mkState 1 0 [] [] []) []) as [Hok _].
  destruct (memory_path [x41] (Scripted.mkState 1 0 [] [] []) []) as [_ Hu].
  split.
  - unfold world_with. rewrite (Hok [] [x41] eq_refl eq_refl). reflexivity.
  - apply Hu. reflexivity.
Defined.

Lemma file_open_witness :
  file [x64; x62] (world_with [] []) =
  Done (Ok (mkRlite 1), mkWorld (Scripted.mkState 1 0 [] [] []) [CConnect [x64; x62] 0]) /\
  file [xc0] (world_with [] []) = Done (Err tt, world_with [] []).
Proof.
  destruct (file_open [x64; x62] (Scripted.mkState 1 0 [] [] []) []) as [_ Hok].
  destruct (file_open [xc0] (Scripted.mkState 1 0 [] [] []) []) as [Hbad _].
  split.
  - unfold world_with. rewrite (Hok eq_refl eq_refl). reflexivity.
  - apply Hbad. reflexivity.
Defined.

Lemma file_then_drop_witness :
  drop (mkRlite 1) (mkWorld (Scripted.mkState 1 0 [] [] []) [CConnect [x64] 0]) =
  Done (tt, mkWorld (Scripted.mkState 1 0 [] [] []) [CConnect [x64] 0; CFree 1]).
Proof.
  destruct (@file_then_drop Scripted.State Scripted.hirlite [x64] (Scripted.mkState 1 0 [] [] []) [] (mkRlite 1)
              (mkWorld (Scripted.mkState 1 0 [] [] []) [CConnect [x64] 0]) eq_refl)
    as (e' & Hc & _ & _ & Hd).
  rewrite Hd. injection Hc as <-. reflexivity.
Defined.

Lemma write_command_count_witness :
  exists argc argv argvlen,
    calls (mkWorld (Scripted.mkState 1 0 [] [] []) [CAppendCommandArgv 1 0 [] []]) =
    [CAppendCommandArgv 1 argc argv argvlen] /\ argc = 0.
Proof.
  destruct (@write_command_count Scripted.State Scripted.hirlite 1 [] (Scripted.mkState 1 0 [] [] []) [] (Ok tt)
              (mkWorld (Scripted.mkState 1 0 [] [] []) [CAppendCommandArgv 1 0 [] []]) eq_refl)
    as (argc & argv & argvlen & Hc & _ & _ & Hempty).
  exists argc, argv, argvlen. split; [exact Hc|apply Hempty; reflexivity].
Defined.

Lemma read_reply_decode_fault_witness :
  read_reply (mkRlite 1) (world_with [(0, 8%N)] [(8%N, rec_bad_status)]) = Panic.
Proof.
  apply (proj2 (@read_reply_decode_fault Scripted.State Scripted.hirlite 1
                  (Scripted.mkState 1 0 [(0, 8%N)] [(8%N, rec_bad_status)] [])
                  (Scripted.mkState 1 0 [] [(8%N, rec_bad_status)] []) [] 8
                  eq_refl ltac:(discriminate)) rec_bad_status eq_refl eq_refl).
Defined.

Lemma read_reply_wf_witness :
  exists res, read_reply (mkRlite 1) (world_with [(0, 8%N)] [(8%N, rec_nested)]) =
    Done (res, mkWorld (Scripted.mkState 1 0 [] [] [8%N])
                 [CGetReply 1; CReadReply 8; CFreeReplyObject 8]).
Proof.
  apply (@read_reply_wf Scripted.State Scripted.hirlite 1
           (Scripted.mkState 1 0 [(0, 8%N)] [(8%N, rec_nested)] [])
           (Scripted.mkState 1 0 [] [(8%N, rec_nested)] []) [] 8 rec_nested
           eq_refl ltac:(discriminate) eq_refl eq_refl).
Defined.
